(** * Linearizer: the transform catalogue of [linearizer/transform.py]

    A shallow embedding of the Python module: the class table with its
    class-level attributes and method resolution order, instances with
    their [params] slot, the keyword-argument binding done by
    [functools.partial], and the kernels over [float64] arrays.
    Numbers are Rocq's primitive binary64 floats, which is what a numpy
    [float64] is. *)

From Stdlib Require Import ZArith Lia List Bool String.
From Stdlib Require Import Floats.
From stdpp Require Import gmap strings.

Local Open Scope string_scope.
Local Open Scope Z_scope.

(** ** Python values and outcomes *)

(** The values that class attributes of the module hold. *)
Inductive value :=
  | VNone
  | VInt (z : Z)
  | VFloat (f : float).

(** The built-in exceptions the module can surface. *)
Inductive exn :=
  | ValueError (msg : string)
  | TypeError
  | AttributeError.

Inductive result (A : Type) :=
  | Ok (a : A)
  | Raise (e : exn).
Arguments Ok {A} a.
Arguments Raise {A} e.

#[global] Instance result_ret : MRet result := fun _ a => Ok a.
#[global] Instance result_bind : MBind result := fun _ _ f r =>
  match r with
  | Ok a => f a
  | Raise e => Raise e
  end.

Definition of_option {A} (e : exn) (o : option A) : result A :=
  match o with
  | Some a => Ok a
  | None => Raise e
  end.

(** A one-dimensional [float64] array. *)
Abbreviation ndarray := (list float).

(** Keyword arguments, and the [params] dictionary. *)
Abbreviation kwargs := (gmap string float).

(** What a [__call__] can hand back: an array, or (for the base class)
    the [NotImplementedError] class object itself. *)
Inductive retval :=
  | RArray (y : ndarray)
  | RNotImplementedError.

(** ** Python numbers used as exponents *)

Definition float_of_int (z : Z) : float :=
  if z <? 0 then (- of_uint63 (Uint63.of_Z (- z)))%float
  else of_uint63 (Uint63.of_Z z).

(** [n > 0] *)
Definition py_gt0 (n : value) : result bool :=
  match n with
  | VInt z => Ok (0 <? z)
  | VFloat f => Ok (0 <? f)%float
  | VNone => Raise TypeError
  end.

(** [-n] *)
Definition py_neg (n : value) : result value :=
  match n with
  | VInt z => Ok (VInt (- z))
  | VFloat f => Ok (VFloat (- f)%float)
  | VNone => Raise TypeError
  end.

(** The conversion numpy applies to a scalar exponent next to a
    [float64] array. *)
Definition to_float64 (n : value) : result float :=
  match n with
  | VInt z => Ok (float_of_int z)
  | VFloat f => Ok f
  | VNone => Raise TypeError
  end.

(** ** The class table *)

Inductive cls :=
  | BaseTransformer
  | Abs | Loge | Log2 | Log10 | Exp
  | _Power
  | Power2 | Power3 | Power4 | Sqrt | Inv | InvPower2.

#[global] Instance cls_eq_dec : EqDecision cls.
Proof. solve_decision. Defined.

Definition base (c : cls) : option cls :=
  match c with
  | BaseTransformer => None
  | Abs | Loge | Log2 | Log10 | Exp | _Power => Some BaseTransformer
  | Power2 | Power3 | Power4 | Sqrt | Inv | InvPower2 => Some _Power
  end.

Fixpoint mro_from (depth : nat) (c : cls) : list cls :=
  match depth with
  | O => []
  | S d => c :: match base c with
                | Some p => mro_from d p
                | None => []
                end
  end.

(** Method resolution order; the hierarchy is three levels deep. *)
Definition mro (c : cls) : list cls := mro_from 3 c.

(** The body of [class _Power] is run once, when the class is created:
    [n = 1] and then [complexity = n * 30] with that [n]. *)
Definition _Power_n : Z := 1.
Definition _Power_complexity : Z := _Power_n * 30.

(** The data attributes each class body binds, in order. *)
Definition class_dict (c : cls) : list (string * value) :=
  match c with
  | BaseTransformer => [("complexity", VNone)]
  | Abs => [("complexity", VInt 50)]
  | Loge => [("complexity", VInt 26)]
  | Log2 => [("complexity", VInt 25)]
  | Log10 => [("complexity", VInt 35)]
  | Exp => [("complexity", VInt 40)]
  | _Power => [("n", VInt _Power_n); ("complexity", VInt _Power_complexity)]
  | Power2 => [("n", VInt 2)]
  | Power3 => [("n", VInt 3)]
  | Power4 => [("n", VInt 4)]
  | Sqrt => [("n", VFloat (1 / 2)%float); ("complexity", VInt 33)]
  | Inv => [("n", VInt (-1)); ("complexity", VInt 37)]
  | InvPower2 => [("n", VInt (-2)); ("complexity", VInt 67)]
  end.

Fixpoint assoc (k : string) (l : list (string * value)) : option value :=
  match l with
  | [] => None
  | (k', v) :: l => if String.eqb k k' then Some v else assoc k l
  end.

Fixpoint lookup_mro (l : list cls) (name : string) : option value :=
  match l with
  | [] => None
  | c :: l => match assoc name (class_dict c) with
              | Some v => Some v
              | None => lookup_mro l name
              end
  end.

(** [C.name], read on the class. *)
Definition class_getattr (c : cls) (name : string) : option value :=
  lookup_mro (mro c) name.

(** The [__call__] bodies of the module. *)
Inductive call_impl :=
  | Base_call
  | Abs_call | Loge_call | Log2_call | Log10_call | Exp_call
  | Power_call.

Definition own_call (c : cls) : option call_impl :=
  match c with
  | BaseTransformer => Some Base_call
  | Abs => Some Abs_call
  | Loge => Some Loge_call
  | Log2 => Some Log2_call
  | Log10 => Some Log10_call
  | Exp => Some Exp_call
  | _Power => Some Power_call
  | Power2 | Power3 | Power4 | Sqrt | Inv | InvPower2 => None
  end.

Fixpoint resolve_call_in (l : list cls) : option call_impl :=
  match l with
  | [] => None
  | c :: l => match own_call c with
              | Some i => Some i
              | None => resolve_call_in l
              end
  end.

Definition resolve_call (c : cls) : result call_impl :=
  of_option AttributeError (resolve_call_in (mro c)).

(** The parameter names of the bound method, as [inspect.signature]
    lists them ([self] is already bound). *)
Definition signature (i : call_impl) : list string :=
  match i with
  | Base_call => ["x"]
  | _ => ["x"; "a"; "b"]
  end.

Definition __all__ : list cls :=
  [Abs; Loge; Log2; Log10; Exp; Power2; Power3; Power4; Sqrt; Inv; InvPower2].

Definition DEFAULT_TRANSFORM : list cls := [Loge; Exp; Power2; Sqrt; Inv].

(** ** Instances *)

Record instance := { klass : cls; params : option kwargs }.

(** [__init__] *)
Definition new (c : cls) : instance := {| klass := c; params := None |}.

(** [self.n] and the like: the instance dictionary only ever holds
    [params], so any other name is read from the class. *)
Definition getattr (self : instance) (name : string) : result value :=
  of_option AttributeError (class_getattr (klass self) name).

Definition get_params (self : instance) : result (list string) :=
  i ← resolve_call (klass self);
  Ok (filter (fun k => k ≠ "x") (signature i)).

Definition set_params (self : instance) (p : option kwargs) (kw : kwargs) : instance :=
  {| klass := klass self;
     params := Some (match p with Some d => d | None => kw end) |}.

Definition np_isfinite (x : ndarray) : list bool := map is_finite x.

(** [arr.all()] *)
Definition all (bs : list bool) : bool := forallb id bs.

Definition validate_input (self : instance) (x : ndarray) : bool :=
  all (np_isfinite x).

Definition no_params_msg : string :=
  "No parameter values, call the set_params method first with the fitted parameter value.".

(** Binding of [f(x, **kw)] against a signature: [x] takes the first
    slot; every keyword must name one of the remaining slots, and every
    remaining slot must be given. *)
Definition bind_args (sig : list string) (kw : kwargs) : result (list float) :=
  match sig with
  | [] => Raise TypeError
  | _ :: rest =>
      if decide (dom kw ⊆ list_to_set rest)
      then of_option TypeError (mapM (fun k => kw !! k) rest)
      else Raise TypeError
  end.

(** ** Kernels *)

#[local] Set Warnings "-inexact-float".
Definition eps : float := 1e-15%float.

(** [a * x + b] with scalar [a], [b] broadcast over the array. *)
Definition affine (a : float) (x : ndarray) (b : float) : ndarray :=
  map (fun v => v + b)%float (map (fun v => a * v)%float x).

Section Kernels.
(** The transcendental ufuncs of numpy, applied to one element. *)
Variables np_log np_log2 np_log10 np_exp : float -> float.
Variable np_power : float -> float -> float.

Definition Power__call__ (self : instance) (x : ndarray) (a b : float)
  : result ndarray :=
  n ← getattr self "n";
  pos ← py_gt0 n;
  if pos : bool then
    e ← to_float64 n;
    Ok (map (fun v => np_power v e) (affine a x b))
  else
    m ← py_neg n;
    e ← to_float64 m;
    Ok (map (fun v => 1 / v)%float
          (map (fun v => v + eps)%float
             (map (fun v => np_power v e) (affine a x b)))).

(** The body of [__call__] for the kernels that take [a] and [b]. *)
Definition kernel (i : call_impl) (self : instance) (x : ndarray) (a b : float)
  : result retval :=
  match i with
  | Base_call => Ok RNotImplementedError
  | Abs_call => Ok (RArray (map abs (affine a x b)))
  | Loge_call => Ok (RArray (map np_log (affine a x b)))
  | Log2_call => Ok (RArray (map np_log2 (affine a x b)))
  | Log10_call => Ok (RArray (map np_log10 (affine a x b)))
  | Exp_call => Ok (RArray (map np_exp (affine a x b)))
  | Power_call => y ← Power__call__ self x a b; Ok (RArray y)
  end.

(** [self.__call__(x, **kw)] *)
Definition invoke (self : instance) (x : ndarray) (kw : kwargs) : result retval :=
  i ← resolve_call (klass self);
  args ← bind_args (signature i) kw;
  match i, args with
  | Base_call, [] => Ok RNotImplementedError
  | _, [a; b] => kernel i self x a b
  | _, _ => Raise TypeError
  end.

Definition transform (self : instance) (x : ndarray) : result retval :=
  match params self with
  | None => Raise (ValueError no_params_msg)
  | Some kw => invoke self x kw
  end.
End Kernels.

(** ** The specification's reading of the power family *)

(** The exponent table of the catalogue, as floats. *)
Definition power_table : list (cls * float) :=
  [(_Power, 1%float); (Power2, 2%float); (Power3, 3%float); (Power4, 4%float);
   (Sqrt, 0.5%float); (Inv, (-1)%float); (InvPower2, (-2)%float)].

(** The classes of the table: the power family. *)
Definition power_family : list cls := map fst power_table.

(** One element of the result as the specification words it:
    [(a x + b)^n] for [n > 0], [1 / ((a x + b)^(-n) + eps)] otherwise. *)
Definition spec_power_elem (pow : float -> float -> float) (n a b xi : float) : float :=
  if (0 <? n)%float then pow (a * xi + b)%float n
  else (1 / (pow (a * xi + b) (- n) + eps))%float.

(** [params] holds exactly the names that [get_params] reports. *)
Definition params_match (self : instance) : Prop :=
  exists d names,
    params self = Some d /\ get_params self = Ok names /\ dom d = list_to_set names.

(** A sequence of [set_params] calls, oldest first. *)
Definition set_params_seq (self : instance) (calls : list (option kwargs * kwargs))
  : instance :=
  fold_left (fun s c => set_params s (fst c) (snd c)) calls self.

(** The dictionary a [set_params] call stores. *)
Definition chosen (p : option kwargs) (kw : kwargs) : kwargs :=
  match p with Some d => d | None => kw end.

(** A power function that is exact where the correctly rounded power is:
    the operand itself at exponent 1 and the rounded square at exponent 2;
    it is not a number elsewhere.  It instantiates [np_power] when a
    statement is run on concrete input. *)
Definition pow_exact (v e : float) : float :=
  if (e =? 1)%float then v
  else if (e =? 2)%float then (v * v)%float
  else nan.

(** ** Reading a float through its IEEE 754 description *)

(** Zeros and finite numbers, as opposed to NaN and the infinities. *)
Definition sf_is_finite (s : spec_float) : bool :=
  match s with
  | S754_zero _ | S754_finite _ _ _ => true
  | S754_nan | S754_infinity _ => false
  end.

Definition finite_value (v : float) : Prop := sf_is_finite (Prim2SF v) = true.

Definition nan_or_infinite (v : float) : Prop :=
  Prim2SF v = S754_nan \/ exists s, Prim2SF v = S754_infinity s.

(** The IEEE 754 descriptions of [1.0] and of [eps]. *)
Definition SF_one : spec_float := S754_finite false 4503599627370496 (-52).
Definition SF_eps : spec_float := S754_finite false 5070602400912918 (-102).

(** ** The diagnostic representation *)

(** The class names, as the [class] statements give them. *)
Definition __name__ (c : cls) : string :=
  match c with
  | BaseTransformer => "BaseTransformer"
  | Abs => "Abs" | Loge => "Loge" | Log2 => "Log2" | Log10 => "Log10" | Exp => "Exp"
  | _Power => "_Power"
  | Power2 => "Power2" | Power3 => "Power3" | Power4 => "Power4"
  | Sqrt => "Sqrt" | Inv => "Inv" | InvPower2 => "InvPower2"
  end.

Section Repr.
(** [str] of a dictionary, a built-in of Python. *)
Variable dict_str : kwargs -> string.

(** [str(self.params)] *)
Definition str_params (p : option kwargs) : string :=
  match p with
  | None => "None"
  | Some d => dict_str d
  end.

Definition __repr__ (self : instance) : string :=
  "Transform<" ++ __name__ (klass self) ++ ":" ++ str_params (params self) ++ ">".
End Repr.

(** ** Signs of floats *)

(** A float that is neither negative nor NaN: a zero of sign [+], the
    infinity of sign [+], or a positive number. *)
Definition sf_nonneg (s : spec_float) : bool :=
  match s with
  | S754_zero false | S754_infinity false | S754_finite false _ _ => true
  | _ => false
  end.

(** * Class attributes *)

(** C8: the complexity constants of the simple kernels are
    Log2 = 25, Loge = 26, Log10 = 35, Exp = 40, Abs = 50,
    in strictly increasing order. *)
Theorem simple_complexity_table :
  exists l2 le l10 ex ab : Z,
    class_getattr Log2 "complexity" = Some (VInt l2) /\
    class_getattr Loge "complexity" = Some (VInt le) /\
    class_getattr Log10 "complexity" = Some (VInt l10) /\
    class_getattr Exp "complexity" = Some (VInt ex) /\
    class_getattr Abs "complexity" = Some (VInt ab) /\
    [l2; le; l10; ex; ab] = [25; 26; 35; 40; 50] /\
    l2 < le /\ le < l10 /\ l10 < ex /\ ex < ab.
Proof.
  exists 25, 26, 35, 40, 50.
  repeat split; reflexivity.
Qed.

(** An attribute a class body does not bind is the one of its base. *)
Lemma class_getattr_inherited (c p : cls) (name : string) :
  base c = Some p ->
  assoc name (class_dict c) = None ->
  class_getattr c name = class_getattr p name.
Proof.
  destruct c; intros [= <-] H; unfold class_getattr, mro;
    simpl in H |- *; rewrite ?H; reflexivity.
Qed.

(** C1 (as the code has it): [Power2], [Power3] and [Power4] bind only
    [n]; their [complexity] is the one [_Power] computed once from its
    own [n = 1], that is 30 for all three, whatever their exponent. *)
Theorem power_default_complexity :
  class_getattr Power2 "n" = Some (VInt 2) /\
  class_getattr Power3 "n" = Some (VInt 3) /\
  class_getattr Power4 "n" = Some (VInt 4) /\
  class_getattr Power2 "complexity" = Some (VInt 30) /\
  class_getattr Power3 "complexity" = Some (VInt 30) /\
  class_getattr Power4 "complexity" = Some (VInt 30).
Proof. repeat split; reflexivity. Qed.

(** * Floats: finiteness *)

Lemma SFeqb_refl_finite s m e :
  SFeqb (S754_finite s m e) (S754_finite s m e) = true.
Proof.
  unfold SFeqb, SFcompare.
  rewrite Z.compare_refl.
  assert (H : Pos.compare_cont Eq m m = Eq) by apply Pos.compare_refl.
  rewrite H. destruct s; reflexivity.
Qed.

(** The primitive test agrees with the IEEE 754 description. *)
Lemma is_finite_spec (v : float) : is_finite v = sf_is_finite (Prim2SF v).
Proof.
  unfold is_finite, is_nan, is_infinity.
  rewrite !FloatAxioms.eqb_spec, FloatAxioms.abs_spec.
  change (Prim2SF infinity) with (S754_infinity false).
  destruct (Prim2SF v) as [s|s| |s m e]; try (destruct s; reflexivity); try reflexivity.
  rewrite SFeqb_refl_finite. reflexivity.
Qed.

Lemma is_finite_true (v : float) : is_finite v = true <-> finite_value v.
Proof. unfold finite_value. rewrite is_finite_spec. reflexivity. Qed.

Lemma is_finite_false (v : float) : is_finite v = false <-> nan_or_infinite v.
Proof.
  unfold nan_or_infinite. rewrite is_finite_spec.
  destruct (Prim2SF v) as [s|s| |s m e]; cbn; split; intros H;
    try discriminate; try reflexivity; eauto;
    destruct H as [H|[s' H]]; discriminate.
Qed.

(** * The base contract *)

(** C7: [validate_input] is false on every array that holds a NaN or
    an infinity, and true on every array whose elements are all finite
    (in both cases: exactly on those). *)
Theorem validate_input_finite (self : instance) (x : ndarray) :
  (validate_input self x = false <-> Exists nan_or_infinite x) /\
  (validate_input self x = true <-> Forall finite_value x).
Proof.
  unfold validate_input, all, np_isfinite.
  induction x as [|v x [IHf IHt]]; cbn [map forallb id].
  - split; split; intros H; try discriminate; try constructor.
    inversion H.
  - split.
    + rewrite andb_false_iff, Exists_cons, IHf, is_finite_false. reflexivity.
    + rewrite andb_true_iff, Forall_cons_iff, IHt, is_finite_true. reflexivity.
Qed.

(** C10: a call that passes both a mapping and keyword arguments stores
    the mapping; the keyword arguments leave no trace. *)
Theorem set_params_mapping_wins (self : instance) (d kw : kwargs) :
  params (set_params self (Some d) kw) = Some d /\
  set_params self (Some d) kw = set_params self (Some d) ∅.
Proof. split; reflexivity. Qed.

(** [get_params] depends on the class alone. *)
Lemma get_params_set_params (self : instance) p kw :
  get_params (set_params self p kw) = get_params self.
Proof. reflexivity. Qed.

Lemma get_params_class (self : instance) :
  get_params self = get_params (new (klass self)).
Proof. reflexivity. Qed.

(** C5: every entry of the default catalogue reports the parameter
    names [a], [b], in that order. *)
Theorem default_catalogue_params :
  Forall (fun c => get_params (new c) = Ok ["a"; "b"]) DEFAULT_TRANSFORM.
Proof. repeat constructor. Qed.

(** The same holds for every class but the base one, whose [__call__]
    takes the series only. *)
Lemma get_params_variant (self : instance) :
  get_params self =
    Ok (if decide (klass self = BaseTransformer) then [] else ["a"; "b"]).
Proof. destruct self as [[] p]; reflexivity. Qed.

Lemma set_params_match (self : instance) p kw :
  params_match (set_params self p kw) <->
  exists names, get_params self = Ok names /\ dom (chosen p kw) = list_to_set names.
Proof.
  unfold params_match. rewrite get_params_set_params. cbn [params set_params].
  fold (chosen p kw). split.
  - intros (d & names & [= <-] & Hg & Hd). eauto.
  - intros (names & Hg & Hd). eauto 6.
Qed.

Lemma set_params_seq_snoc (self : instance) calls p kw :
  set_params_seq self (calls ++ [(p, kw)]) =
  set_params (set_params_seq self calls) p kw.
Proof. unfold set_params_seq. rewrite fold_left_app. reflexivity. Qed.

Lemma set_params_seq_klass (self : instance) calls :
  klass (set_params_seq self calls) = klass self.
Proof.
  revert self. induction calls as [|c calls IH]; intros self; [reflexivity|].
  cbn. unfold set_params_seq in IH. rewrite IH. reflexivity.
Qed.

(** C3 (amended): [set_params] stores the dictionary of the last call
    as it is, without comparing it to [get_params]; after any sequence
    of calls, [params] holds exactly the introspected names if and only
    if the dictionary given in the last call has exactly those keys. *)
Theorem set_params_seq_last (self : instance) calls p kw :
  params (set_params_seq self (calls ++ [(p, kw)])) = Some (chosen p kw) /\
  (params_match (set_params_seq self (calls ++ [(p, kw)])) <->
   exists names, get_params self = Ok names /\ dom (chosen p kw) = list_to_set names).
Proof.
  rewrite set_params_seq_snoc. split; [reflexivity|].
  rewrite set_params_match.
  rewrite (get_params_class (set_params_seq self calls)), set_params_seq_klass.
  reflexivity.
Qed.

(** C3 (as stated) fails: a dictionary with a foreign key is stored by
    [set_params] all the same. *)
Lemma set_params_foreign_key :
  params (set_params (new Loge) (Some {[ "c" := 1%float ]}) ∅)
    = Some {[ "c" := 1%float ]} /\
  get_params (set_params (new Loge) (Some {[ "c" := 1%float ]}) ∅) = Ok ["a"; "b"] /\
  ~ params_match (set_params (new Loge) (Some {[ "c" := 1%float ]}) ∅).
Proof.
  split; [reflexivity|]. split; [reflexivity|].
  intros (d & names & [= <-] & [= <-] & Hd).
  rewrite dom_singleton_L in Hd.
  assert (H : "a" ∈ ({[ "c" ]} : gset string)) by (rewrite Hd; set_solver).
  set_solver.
Qed.

(** * Applying a transform *)

Section Contract.
Variables np_log np_log2 np_log10 np_exp : float -> float.
Variable np_power : float -> float -> float.

Local Abbreviation invoke' := (invoke np_log np_log2 np_log10 np_exp np_power).
Local Abbreviation transform' := (transform np_log np_log2 np_log10 np_exp np_power).
Local Abbreviation Power_call' := (Power__call__ np_power).

(** The power kernel, element by element, for any exponent whose
    sign test and negation agree with those of its float64 value. *)
Lemma Power__call___elementwise (self : instance) (n : value) (nf : float) x a b :
  getattr self "n" = Ok n ->
  to_float64 n = Ok nf ->
  py_gt0 n = Ok (0 <? nf)%float ->
  (m ← py_neg n; to_float64 m) = Ok (- nf)%float ->
  Power_call' self x a b = Ok (map (spec_power_elem np_power nf a b) x).
Proof.
  intros Hn Hf Hpos Hneg. unfold Power__call__.
  rewrite Hn. cbn [mbind result_bind]. rewrite Hpos. cbn [mbind result_bind].
  unfold spec_power_elem, affine.
  destruct (0 <? nf)%float.
  - rewrite Hf. cbn [mbind result_bind]. rewrite !map_map. reflexivity.
  - destruct (py_neg n) as [m|e]; cbn [mbind result_bind] in Hneg |- *;
      [|discriminate].
    rewrite Hneg. cbn [mbind result_bind]. rewrite !map_map. reflexivity.
Qed.

(** The power family is the set of classes whose [__call__] is the
    one of [_Power]. *)
Lemma power_family_calls (c : cls) :
  resolve_call c = Ok Power_call <-> c ∈ power_family.
Proof.
  unfold power_family, power_table. cbn [map fst].
  rewrite list_elem_of_In.
  destruct c; cbn; split; intros Hc; try reflexivity; try discriminate;
    intuition discriminate.
Qed.

(** C6: for every class of the power family, with [n] its exponent
    from the table, the kernel returns, element by element,
    [(a x + b)^n] when [n > 0] and [1 / ((a x + b)^(-n) + eps)] when
    [n <= 0], with [eps = 1e-15]. *)
Theorem power_kernel_elementwise (p : option kwargs) (x : ndarray) (a b : float) :
  Forall (fun cn : cls * float =>
            resolve_call (fst cn) = Ok Power_call /\
            class_getattr (fst cn) "n" ≫= (fun n => Some (to_float64 n))
              = Some (Ok (snd cn)) /\
            Power_call' {| klass := fst cn; params := p |} x a b
              = Ok (map (spec_power_elem np_power (snd cn) a b) x))
         power_table.
Proof.
  unfold power_table.
  repeat match goal with
         | |- Forall _ (_ :: _) => constructor
         | |- Forall _ [] => constructor
         end;
    cbn [fst snd];
    (split; [reflexivity|]; split;
     [reflexivity | eapply Power__call___elementwise; reflexivity]).
Qed.

Lemma bind_args_empty (s k : string) (rest : list string) :
  bind_args (s :: k :: rest) ∅ = Raise TypeError.
Proof.
  unfold bind_args. destruct (decide _); [|reflexivity].
  cbn. rewrite lookup_empty. reflexivity.
Qed.

Lemma invoke_no_ValueError (self : instance) x kw msg :
  invoke' self x kw <> Raise (ValueError msg).
Proof.
  destruct self as [c p]. unfold invoke.
  destruct c; cbn [klass resolve_call mro mro_from base resolve_call_in own_call
                   of_option mbind result_bind signature bind_args];
    (destruct (decide _); [|discriminate]);
    (destruct (mapM _ _) as [[|a [|b [|? ?]]]|]; cbn; try discriminate).
Qed.

(** C4: on a fresh instance of any class, [transform] raises the
    invalid-state error; and on any instance it raises that error
    exactly when [params] is still unset, so the kernel is reached
    only after [set_params]. *)
Theorem transform_before_set_params :
  (forall (c : cls) (x : ndarray),
      transform' (new c) x = Raise (ValueError no_params_msg)) /\
  (forall (self : instance) (x : ndarray),
      (exists msg, transform' self x = Raise (ValueError msg))
      <-> params self = None).
Proof.
  split; [reflexivity|].
  intros self x. unfold transform.
  destruct (params self) as [kw|]; split.
  - intros [msg H]. exfalso. exact (invoke_no_ValueError _ _ _ _ H).
  - discriminate.
  - reflexivity.
  - eauto.
Qed.

(** C9: [set_params()] with neither a mapping nor keywords stores the
    empty dictionary, not the unset state; [transform] then gets past
    the invalid-state check and fails in the call itself, with the
    argument-mismatch error, for every exported class. *)
Theorem set_params_nothing_then_transform (x : ndarray) :
  Forall (fun c =>
            params (set_params (new c) None ∅) = Some ∅ /\
            transform' (set_params (new c) None ∅) x = Raise TypeError /\
            transform' (set_params (new c) None ∅) x
              <> Raise (ValueError no_params_msg))
         __all__.
Proof.
  unfold __all__.
  repeat match goal with
         | |- Forall _ (_ :: _) => constructor
         | |- Forall _ [] => constructor
         end;
    (split; [reflexivity|]; split; [|discriminate]);
    unfold transform, invoke;
    cbn [params set_params klass new resolve_call mro mro_from base
         resolve_call_in own_call of_option mbind result_bind signature];
    rewrite bind_args_empty; reflexivity.
Qed.
End Contract.

(** * Binary64 arithmetic behind the reciprocal kernel *)

(** ** Mantissa sizes and rounding shifts *)

Lemma fexp_eq (k : Z) : fexp prec emax k = Z.max (k - 53) (-1074).
Proof. reflexivity. Qed.

Lemma digits2_pos_bounds (p : positive) :
  2 ^ (Zpos (digits2_pos p) - 1) <= Zpos p < 2 ^ Zpos (digits2_pos p).
Proof.
  induction p as [p IH|p IH|]; cbn [digits2_pos].
  - rewrite Pos2Z.inj_succ, Z.pow_succ_r by lia.
    replace (Z.succ (Zpos (digits2_pos p)) - 1) with (Z.succ (Zpos (digits2_pos p) - 1)) by lia.
    rewrite Z.pow_succ_r by lia. lia.
  - rewrite Pos2Z.inj_succ, Z.pow_succ_r by lia.
    replace (Z.succ (Zpos (digits2_pos p)) - 1) with (Z.succ (Zpos (digits2_pos p) - 1)) by lia.
    rewrite Z.pow_succ_r by lia. lia.
  - cbn. lia.
Qed.

Lemma digits2_pos_le (p : positive) (k : Z) :
  Zpos p < 2 ^ k -> Zpos (digits2_pos p) <= k.
Proof.
  intros H. destruct (Z.le_gt_cases (Zpos (digits2_pos p)) k) as [|Hk]; [assumption|].
  destruct (Z.lt_ge_cases k 0) as [Hn|Hn].
  - rewrite Z.pow_neg_r in H by assumption. lia.
  - pose proof (digits2_pos_bounds p) as [Hl _].
    assert (2 ^ k <= 2 ^ (Zpos (digits2_pos p) - 1)) by (apply Z.pow_le_mono_r; lia).
    lia.
Qed.

Lemma digits2_pos_ge (p : positive) (k : Z) :
  2 ^ k <= Zpos p -> k + 1 <= Zpos (digits2_pos p).
Proof.
  intros H. destruct (Z.le_gt_cases (k + 1) (Zpos (digits2_pos p))) as [|Hk]; [assumption|].
  pose proof (digits2_pos_bounds p) as [_ Hu].
  assert (2 ^ Zpos (digits2_pos p) <= 2 ^ k) by (apply Z.pow_le_mono_r; lia).
  lia.
Qed.

Lemma Zdigits2_le (m k : Z) : 0 <= m < 2 ^ k -> 0 <= k -> Zdigits2 m <= k.
Proof.
  destruct m as [|p|p]; cbn [Zdigits2]; intros [H0 H] Hk; try lia.
  apply digits2_pos_le; assumption.
Qed.

(** shr_1 halves a non-negative mantissa. *)
Lemma shr_1_m (mrs : shr_record) :
  0 <= shr_m mrs -> shr_m (shr_1 mrs) = shr_m mrs / 2.
Proof.
  destruct mrs as [m r s]. cbn [shr_m]. intros H.
  rewrite <- Z.div2_div.
  destruct m as [|[p|p|]|p]; try reflexivity; lia.
Qed.

Lemma iter_shr_1_m (p : positive) : forall mrs : shr_record,
  0 <= shr_m mrs -> shr_m (SpecFloat.iter_pos shr_1 p mrs) = shr_m mrs / 2 ^ Zpos p.
Proof.
  assert (Hnn : forall m k, 0 <= m -> 0 < k -> 0 <= m / k)
    by (intros; apply Z.div_pos; lia).
  assert (Hpow : forall q, 0 < 2 ^ Zpos q) by (intros; apply Z.pow_pos_nonneg; lia).
  induction p as [p IH|p IH|]; intros mrs H; cbn [SpecFloat.iter_pos].
  - assert (H1 : 0 <= shr_m (shr_1 mrs)) by (rewrite shr_1_m by assumption; apply Hnn; lia).
    assert (H2 : 0 <= shr_m (SpecFloat.iter_pos shr_1 p (shr_1 mrs)))
      by (rewrite IH by assumption; apply Hnn; [assumption|apply Hpow]).
    rewrite IH, IH, shr_1_m by assumption.
    pose proof (Hpow p).
    rewrite !Z.div_div by lia.
    f_equal. replace (Zpos p~1) with (1 + Zpos p + Zpos p) by lia.
    rewrite !Z.pow_add_r by lia. lia.
  - assert (H2 : 0 <= shr_m (SpecFloat.iter_pos shr_1 p mrs))
      by (rewrite IH by assumption; apply Hnn; [assumption|apply Hpow]).
    rewrite IH, IH by assumption.
    pose proof (Hpow p).
    rewrite !Z.div_div by lia.
    f_equal. replace (Zpos p~0) with (Zpos p + Zpos p) by lia.
    rewrite !Z.pow_add_r by lia. lia.
  - rewrite shr_1_m by assumption. reflexivity.
Qed.

Lemma shr_record_of_loc_m m l : shr_m (shr_record_of_loc m l) = m.
Proof. destruct l as [|[]]; reflexivity. Qed.

(** One rounding shift: the exponent moves up to the canonical one and
    the mantissa is divided accordingly. *)
Lemma shr_fexp_inv (m e : Z) (l : location) :
  0 <= m ->
  let e' := Z.max e (fexp prec emax (Zdigits2 m + e)) in
  snd (shr_fexp prec emax m e l) = e' /\
  shr_m (fst (shr_fexp prec emax m e l)) = m / 2 ^ (e' - e).
Proof.
  intros Hm e'. unfold shr_fexp, shr. subst e'.
  destruct (fexp prec emax (Zdigits2 m + e) - e) as [|n|n] eqn:E; cbn [fst snd].
  - rewrite shr_record_of_loc_m. replace (Z.max _ _ - e) with 0 by lia.
    rewrite Z.div_1_r. split; lia.
  - rewrite iter_shr_1_m by (rewrite shr_record_of_loc_m; assumption).
    rewrite shr_record_of_loc_m.
    replace (Z.max _ _ - e) with (Zpos n) by lia. split; lia.
  - rewrite shr_record_of_loc_m. replace (Z.max _ _ - e) with 0 by lia.
    rewrite Z.div_1_r. split; lia.
Qed.

Lemma round_nearest_even_bounds (m : Z) (l : location) :
  m <= round_nearest_even m l <= m + 1.
Proof.
  unfold round_nearest_even. destruct l as [|[]]; try destruct (Z.even m); lia.
Qed.

(** The shape of every result of [binary_round_aux] on a non-negative
    mantissa. *)
Lemma binary_round_aux_inv (s : bool) (m e : Z) (l : location) :
  0 <= m ->
  exists e1 mr e2 m2,
    e1 = Z.max e (fexp prec emax (Zdigits2 m + e)) /\
    m / 2 ^ (e1 - e) <= mr <= m / 2 ^ (e1 - e) + 1 /\
    e2 = Z.max e1 (fexp prec emax (Zdigits2 mr + e1)) /\
    m2 = mr / 2 ^ (e2 - e1) /\
    binary_round_aux prec emax s m e l =
      match m2 with
      | Z0 => S754_zero s
      | Zpos p => if e2 <=? emax - prec then S754_finite s p e2 else S754_infinity s
      | Zneg _ => S754_nan
      end.
Proof.
  intros Hm. unfold binary_round_aux.
  pose proof (shr_fexp_inv m e l Hm) as [He1 Hm1].
  destruct (shr_fexp prec emax m e l) as [mrs1 e1]. cbn [fst snd] in He1, Hm1.
  rewrite <- He1 in Hm1.
  set (mr := round_nearest_even (shr_m mrs1) (loc_of_shr_record mrs1)).
  pose proof (round_nearest_even_bounds (shr_m mrs1) (loc_of_shr_record mrs1)) as Hr.
  fold mr in Hr.
  assert (H1 : 0 <= shr_m mrs1)
    by (rewrite Hm1; apply Z.div_pos; [assumption|apply Z.pow_pos_nonneg; lia]).
  assert (Hmr : 0 <= mr) by lia.
  pose proof (shr_fexp_inv mr e1 loc_Exact Hmr) as [He2 Hm2].
  destruct (shr_fexp prec emax mr e1 loc_Exact) as [mrs2 e2]. cbn [fst snd] in He2, Hm2.
  rewrite <- He2 in Hm2.
  exists e1, mr, e2, (shr_m mrs2).
  rewrite <- Hm1. repeat split; try assumption; lia.
Qed.

Lemma pow2_pos (k : Z) : 0 <= k -> 0 < 2 ^ k.
Proof. intros. apply Z.pow_pos_nonneg; lia. Qed.

(** A positive mantissa at an exponent not below [emin] survives the
    shift to its canonical exponent. *)
Lemma shift_keeps_positive (m e : Z) :
  0 < m -> -1074 <= e ->
  0 < m / 2 ^ (Z.max e (fexp prec emax (Zdigits2 m + e)) - e).
Proof.
  intros Hm He. rewrite fexp_eq.
  destruct m as [|p|p]; try lia. cbn [Zdigits2].
  pose proof (digits2_pos_bounds p) as [Hl _].
  set (d := Zpos (digits2_pos p)) in *.
  apply Z.div_str_pos. split; [apply pow2_pos; lia|].
  destruct (Z.le_gt_cases (d + e - 53) e).
  - replace (Z.max e (Z.max (d + e - 53) (-1074)) - e) with 0 by lia. cbn. lia.
  - replace (Z.max e (Z.max (d + e - 53) (-1074)) - e) with (d - 53) by lia.
    transitivity (2 ^ (d - 1)); [apply Z.pow_le_mono_r; lia|assumption].
Qed.

Lemma binary_round_aux_not_nan s m e l :
  0 <= m -> binary_round_aux prec emax s m e l <> S754_nan.
Proof.
  intros Hm. destruct (binary_round_aux_inv s m e l Hm)
    as (e1 & mr & e2 & m2 & He1 & Hmr & He2 & Hm2 & ->).
  assert (0 <= m / 2 ^ (e1 - e)) by (apply Z.div_pos; [lia|apply pow2_pos; lia]).
  assert (0 <= m2) by (subst m2; apply Z.div_pos; [lia|apply pow2_pos; lia]).
  destruct m2; try lia; try discriminate.
  destruct (e2 <=? emax - prec); discriminate.
Qed.

Lemma binary_round_aux_sign s m e l s' m' e' :
  0 <= m -> binary_round_aux prec emax s m e l = S754_finite s' m' e' ->
  s' = s /\ Zdigits2 m + e - 53 <= e'.
Proof.
  intros Hm. destruct (binary_round_aux_inv s m e l Hm)
    as (e1 & mr & e2 & m2 & He1 & Hmr & He2 & Hm2 & ->).
  rewrite fexp_eq in He1.
  destruct m2; try discriminate.
  destruct (e2 <=? emax - prec); intros [= <- <- <-]. split; [reflexivity|lia].
Qed.

Lemma binary_round_aux_not_zero s m e l s' :
  0 < m -> -1074 <= e -> binary_round_aux prec emax s m e l <> S754_zero s'.
Proof.
  intros Hm He. destruct (binary_round_aux_inv s m e l) as
    (e1 & mr & e2 & m2 & He1 & Hmr & He2 & Hm2 & ->); [lia|].
  pose proof (shift_keeps_positive m e Hm He) as H1. rewrite <- He1 in H1.
  assert (Hmr0 : 0 < mr) by lia.
  assert (He1' : -1074 <= e1) by lia.
  pose proof (shift_keeps_positive mr e1 Hmr0 He1') as H2.
  rewrite <- He2, <- Hm2 in H2.
  destruct m2; try lia.
  destruct (e2 <=? emax - prec); discriminate.
Qed.

(** No overflow when the value stays below [2 ^ B], for [B] in range. *)
Lemma binary_round_aux_not_infinity s m e l s' (B : Z) :
  0 <= m < 2 ^ (B - e) -> e <= B -> -1074 <= B <= 971 ->
  binary_round_aux prec emax s m e l <> S754_infinity s'.
Proof.
  intros [Hm Hlt] He HB. destruct (binary_round_aux_inv s m e l Hm) as
    (e1 & mr & e2 & m2 & He1 & Hmr & He2 & Hm2 & ->).
  rewrite fexp_eq in He1, He2.
  assert (Hd : Zdigits2 m <= B - e) by (apply Zdigits2_le; lia).
  assert (He1B : e1 <= B) by lia.
  assert (H1 : m / 2 ^ (e1 - e) < 2 ^ (B - e1)).
  { apply Z.div_lt_upper_bound; [apply pow2_pos; lia|].
    rewrite <- Z.pow_add_r by lia. replace (e1 - e + (B - e1)) with (B - e) by lia.
    assumption. }
  assert (0 <= m / 2 ^ (e1 - e)) by (apply Z.div_pos; [lia|apply pow2_pos; lia]).
  assert (Hmr2 : 0 <= mr < 2 ^ (B + 1 - e1)).
  { replace (B + 1 - e1) with (Z.succ (B - e1)) by lia.
    rewrite Z.pow_succ_r by lia. lia. }
  assert (Hd' : Zdigits2 mr <= B + 1 - e1) by (apply Zdigits2_le; lia).
  assert (He2B : e2 <= 971) by lia.
  destruct m2; try discriminate.
  change (emax - prec) with 971. apply Z.leb_le in He2B. rewrite He2B. discriminate.
Qed.

Lemma iter_xO_pow2 (m d : positive) :
  Zpos (Pos.iter xO m d) = Zpos m * 2 ^ Zpos d.
Proof.
  induction d as [|d IH] using Pos.peano_ind.
  - cbn. lia.
  - rewrite Pos.iter_succ, Pos2Z.inj_xO, IH, Pos2Z.inj_succ, Z.pow_succ_r by lia. lia.
Qed.

Lemma shl_align_inv (m : positive) (e e0 : Z) :
  snd (shl_align m e e0) = Z.min e e0 /\
  Zpos (fst (shl_align m e e0)) = Zpos m * 2 ^ (e - Z.min e e0).
Proof.
  unfold shl_align. destruct (e0 - e) as [|d|d] eqn:E; cbn [fst snd].
  - replace (e - Z.min e e0) with 0 by lia. split; lia.
  - replace (e - Z.min e e0) with 0 by lia. split; lia.
  - rewrite iter_xO_pow2. replace (e - Z.min e e0) with (Zpos d) by lia. split; lia.
Qed.

Lemma digits2_pos_shift (m q : positive) (k : Z) :
  0 <= k -> Zpos q = Zpos m * 2 ^ k ->
  Zpos (digits2_pos q) = Zpos (digits2_pos m) + k.
Proof.
  intros Hk Hq. pose proof (digits2_pos_bounds m) as [Hl Hu].
  pose proof (pow2_pos k Hk).
  apply Z.le_antisymm.
  - apply digits2_pos_le. rewrite Hq, Z.pow_add_r by lia. nia.
  - replace (Zpos (digits2_pos m) + k) with (Zpos (digits2_pos m) - 1 + k + 1) by lia.
    apply digits2_pos_ge. rewrite Hq, Z.pow_add_r by lia. nia.
Qed.

(** Rounding a positive integer mantissa at an exponent not below
    [emin]: the result is an infinity or a finite number of the same
    sign whose exponent is bounded from below. *)
Lemma binary_round_inv (s : bool) (m : positive) (e : Z) :
  -1074 <= e ->
  binary_round prec emax s m e = S754_infinity s \/
  exists m' e', binary_round prec emax s m e = S754_finite s m' e' /\
                Zpos (digits2_pos m) + e - 53 <= e'.
Proof.
  intros He. unfold binary_round.
  pose proof (shl_align_inv m e (fexp prec emax (Zpos (digits2_pos m) + e))) as [Hz Hmz].
  destruct (shl_align _ _ _) as [mz ez]. cbn [fst snd] in Hz, Hmz.
  rewrite fexp_eq in Hz. 
  assert (Hez : -1074 <= ez) by lia.
  assert (Hd : Zpos (digits2_pos mz) = Zpos (digits2_pos m) + (e - ez)).
  { apply digits2_pos_shift; [lia|]. rewrite Hmz, fexp_eq. f_equal. f_equal. lia. }
  destruct (binary_round_aux prec emax s (Zpos mz) ez loc_Exact) as [s'|s'| |s' m' e'] eqn:E.
  - exfalso. revert E. apply binary_round_aux_not_zero; lia.
  - left. revert E. unfold binary_round_aux.
    destruct (shr_fexp _ _ _ _ _) as [a b]. destruct (shr_fexp _ _ _ _ _) as [c d].
    destruct (shr_m c); try discriminate.
    destruct (_ <=? _); [discriminate|]. intros [= ->]. reflexivity.
  - exfalso. revert E. apply binary_round_aux_not_nan; lia.
  - right. apply binary_round_aux_sign in E as [-> HE]; [|lia].
    exists m', e'. split; [reflexivity|]. cbn [Zdigits2] in HE. lia.
Qed.

Lemma bounded_inv (m : positive) (e : Z) :
  bounded prec emax m e = true ->
  Z.max (Zpos (digits2_pos m) + e - 53) (-1074) = e /\ e <= 971.
Proof.
  unfold bounded, canonical_mantissa. rewrite fexp_eq.
  intros [H1 H2]%andb_true_iff. apply Z.eqb_eq in H1. apply Z.leb_le in H2.
  change (emax - prec) with 971 in H2. split; assumption.
Qed.

Lemma iter_pos_Pos_iter {A} (f : A -> A) (p : positive) : forall x : A,
  SpecFloat.iter_pos f p x = Pos.iter f x p.
Proof.
  induction p as [p IH|p IH|]; intros x; cbn [SpecFloat.iter_pos Pos.iter].
  - rewrite !IH, !Pos.iter_swap. reflexivity.
  - rewrite !IH. reflexivity.
  - reflexivity.
Qed.

(** Shifting out zeros only is exact. *)
Lemma iter_shr_1_exact (m d : positive) :
  SpecFloat.iter_pos shr_1 d
    {| shr_m := Zpos (Pos.iter xO m d); shr_r := false; shr_s := false |}
  = {| shr_m := Zpos m; shr_r := false; shr_s := false |}.
Proof.
  rewrite iter_pos_Pos_iter.
  induction d as [|d IH] using Pos.peano_ind.
  - reflexivity.
  - rewrite Pos.iter_succ, <- Pos.iter_swap, Pos.iter_succ. exact IH.
Qed.

Lemma SFmul_one_l (x : spec_float) :
  valid_binary x = true -> SFmul prec emax SF_one x = x.
Proof.
  destruct x as [s|s| |s m e]; try reflexivity. cbn [valid_binary].
  intros [Hc He]%bounded_inv.
  unfold SF_one, SFmul. cbn [xorb].
  change (4503599627370496 * m)%positive with (Pos.iter xO m 52).
  assert (Hd : Zdigits2 (Zpos (Pos.iter xO m 52)) = Zpos (digits2_pos m) + 52).
  { cbn [Zdigits2]. apply digits2_pos_shift; [lia|]. apply iter_xO_pow2. }
  unfold binary_round_aux, shr_fexp. rewrite Hd, fexp_eq.
  replace (Z.max (Zpos (digits2_pos m) + 52 + (-52 + e) - 53) (-1074) - (-52 + e))
    with 52 by lia.
  unfold shr at 1. cbn [shr_record_of_loc]. rewrite iter_shr_1_exact.
  cbn [shr_m loc_of_shr_record round_nearest_even Zdigits2].
  replace (-52 + e + 52) with e by lia. rewrite fexp_eq, Hc, Z.sub_diag.
  cbn [shr shr_record_of_loc shr_m].
  change (emax - prec) with 971. apply Z.leb_le in He. rewrite He. reflexivity.
Qed.

(** What [x + eps] can be for a finite non-zero [x]: zero only for
    [x = -eps], never NaN, and otherwise an infinity or a number whose
    exponent is far above the subnormal range. *)
Lemma SFadd_eps_inv (s : bool) (m : positive) (e : Z) :
  bounded prec emax m e = true ->
  match SFadd prec emax (S754_finite s m e) SF_eps with
  | S754_zero _ => S754_finite s m e = SFopp SF_eps
  | S754_nan => False
  | S754_infinity _ => True
  | S754_finite _ _ e' => -970 <= e'
  end.
Proof.
  intros [Hc He]%bounded_inv.
  pose proof (digits2_pos_bounds m) as [Hml Hmu].
  set (d := Zpos (digits2_pos m)) in *.
  assert (Hd53 : d <= 53) by lia.
  assert (Hm53 : Zpos m < 2 ^ 53).
  { apply Z.lt_le_trans with (1 := Hmu). apply Z.pow_le_mono_r; lia. }
  unfold SF_eps, SFadd. cbn [cond_Zopp].
  set (ez := Z.min e (-102)).
  pose proof (shl_align_inv m e ez) as [_ HA].
  pose proof (shl_align_inv 5070602400912918 (-102) ez) as [_ HB].
  replace (Z.min e ez) with ez in HA by lia.
  replace (Z.min (-102) ez) with ez in HB by lia.
  set (A := Zpos (fst (shl_align m e ez))) in *.
  set (B := Zpos (fst (shl_align 5070602400912918 (-102) ez))) in *.
  assert (Hez : -1074 <= ez) by lia.
  assert (Hmag : forall p, Z.abs (cond_Zopp s A + B) = Zpos p ->
                           -917 <= Zpos (digits2_pos p) + ez).
  { intros p Hp. destruct (Z.le_gt_cases (-900) e) as [Hbig|Hsmall].
    - pose proof (Pos2Z.is_pos (digits2_pos p)). lia.
    - replace (e - ez) with 0 in HA by lia. rewrite Z.pow_0_r in HA.
      assert (HK : 2 ^ 53 <= 2 ^ (-51 - e)) by (apply Z.pow_le_mono_r; lia).
      assert (HB' : 2 ^ 52 * 2 ^ (-102 - ez) <= B) by (rewrite HB; nia).
      rewrite <- Z.pow_add_r in HB' by lia.
      replace (52 + (-102 - ez)) with (Z.succ (-51 - e)) in HB' by lia.
      rewrite Z.pow_succ_r in HB' by lia.
      assert (Hp' : 2 ^ (-51 - e) <= Zpos p)
        by (destruct s; cbn [cond_Zopp] in Hp; lia).
      apply digits2_pos_ge in Hp'. lia. }
  destruct (cond_Zopp s A + B) as [|p|p] eqn:Hz; cbn [binary_normalize].
  - (* exact cancellation *)
    assert (Hs : s = true) by (destruct s; cbn [cond_Zopp] in Hz; [reflexivity|lia]).
    subst s. cbn [cond_Zopp] in Hz. cbn [SFopp negb].
    assert (HAB : A = B) by lia. rewrite HA, HB in HAB.
    destruct (Z.lt_trichotomy e (-102)) as [Hlt|[Heq|Hgt]].
    + exfalso. replace (e - ez) with 0 in HAB by lia.
      assert (2 ^ 1 <= 2 ^ (-102 - ez)) by (apply Z.pow_le_mono_r; lia).
      change (2 ^ 53) with 9007199254740992 in Hm53. lia.
    + subst e. replace (-102 - ez) with 0 in HAB by lia.
      replace (-102 - ez) with 0 in HAB by lia.
      f_equal. lia.
    + exfalso. replace (-102 - ez) with 0 in HAB by lia.
      assert (d = 53) by lia.
      assert (2 ^ 1 <= 2 ^ (e - ez)) by (apply Z.pow_le_mono_r; lia).
      replace (d - 1) with 52 in Hml by lia.
      change (2 ^ 52) with 4503599627370496 in Hml. nia.
  - destruct (binary_round_inv false p ez Hez) as [->|(m' & e' & -> & He')]; [exact I|].
    specialize (Hmag p eq_refl). lia.
  - destruct (binary_round_inv true p ez Hez) as [->|(m' & e' & -> & He')]; [exact I|].
    specialize (Hmag p eq_refl). lia.
Qed.

(** [1 / w] is finite as soon as the exponent of [w] is not too low. *)
Lemma SFdiv_one_finite (s : bool) (m : positive) (e : Z) :
  bounded prec emax m e = true -> -970 <= e ->
  sf_is_finite (SFdiv prec emax SF_one (S754_finite s m e)) = true.
Proof.
  intros [Hc He]%bounded_inv Hlow.
  unfold SFdiv, SF_one, SFdiv_core_binary.
  set (eq := Z.min _ (-52 - e)).
  assert (Heq : eq <= -52 - e) by (subst eq; lia).
  set (m' := match -52 - e - eq with Z0 => _ | Zpos _ => _ | Zneg _ => _ end).
  assert (Hm' : 0 <= m' <= 2 ^ (-e - eq)).
  { subst m'. destruct (-52 - e - eq) as [|p|p] eqn:E; try lia.
    - replace (- e - eq) with 52 by lia. cbn. lia.
    - rewrite Z.shiftl_mul_pow2 by lia. rewrite <- E.
      change 4503599627370496 with (2 ^ 52). rewrite <- Z.pow_add_r by lia.
      replace (52 + (-52 - e - eq)) with (- e - eq) by lia.
      pose proof (pow2_pos (- e - eq)). lia. }
  clearbody m'.
  destruct (Z.div_eucl m' (Zpos m)) as [q r] eqn:E.
  assert (Hq : q = m' / Zpos m) by (unfold Z.div; rewrite E; reflexivity).
  assert (Hq0 : 0 <= q) by (subst q; apply Z.div_pos; lia).
  assert (Hqm : q <= m') by (subst q; apply Z.div_le_upper_bound; nia).
  assert (Hlt : 0 <= q < 2 ^ (1 - e - eq)).
  { replace (1 - e - eq) with (Z.succ (- e - eq)) by lia.
    rewrite Z.pow_succ_r by lia. lia. }
  destruct (binary_round_aux prec emax (xorb false s) q eq (new_location (Zpos m) r))
    as [s'|s'| |s' m'' e''] eqn:R; try reflexivity; exfalso; revert R.
  - apply binary_round_aux_not_infinity with (B := 1 - e); lia.
  - apply binary_round_aux_not_nan. lia.
Qed.

(** ** From the description to the primitive operations *)

Lemma Prim2SF_one : Prim2SF 1%float = SF_one.
Proof. reflexivity. Qed.

Lemma Prim2SF_eps : Prim2SF eps = SF_eps.
Proof. reflexivity. Qed.

Lemma mul_one_l (x : float) : (1 * x)%float = x.
Proof.
  apply Prim2SF_inj. rewrite mul_spec, Prim2SF_one.
  apply SFmul_one_l, Prim2SF_valid.
Qed.

(** Adding [0.0] can only turn [-0.0] into [0.0], which the next
    addition absorbs. *)
Lemma add_zero_add_eps (x : float) : (x + 0 + eps)%float = (x + eps)%float.
Proof.
  apply Prim2SF_inj. rewrite !add_spec, Prim2SF_eps.
  change (Prim2SF 0%float) with (S754_zero false).
  destruct (Prim2SF x) as [[]|[]| |s m e]; reflexivity.
Qed.

Lemma inv_eps_pole : (1 / (- eps + eps))%float = infinity.
Proof. reflexivity. Qed.

(** Away from [-eps], the stabilised reciprocal of a finite number is
    finite. *)
Lemma inv_eps_finite (x : float) :
  finite_value x -> x <> (- eps)%float -> finite_value (1 / (x + eps))%float.
Proof.
  unfold finite_value. intros Hx Hne.
  rewrite div_spec, Prim2SF_one.
  pose proof (Prim2SF_valid (x + eps)%float) as Hv.
  rewrite add_spec, Prim2SF_eps in Hv |- *.
  unfold SF64div, SF64add in *.
  pose proof (Prim2SF_valid x) as Hvx.
  destruct (Prim2SF x) as [s|s| |s m e] eqn:Ex; try discriminate.
  - destruct s; reflexivity.
  - cbn [valid_binary] in Hvx.
    pose proof (SFadd_eps_inv s m e Hvx) as Hw.
    destruct (SFadd prec emax (S754_finite s m e) SF_eps) as [s'|s'| |s' m' e'].
    + exfalso. apply Hne, Prim2SF_inj.
      rewrite opp_spec, Prim2SF_eps, Ex. exact Hw.
    + destruct s'; reflexivity.
    + destruct Hw.
    + apply SFdiv_one_finite; assumption.
Qed.

(** * The reciprocal kernel *)

Section Reciprocal.
Variable np_power : float -> float -> float.
(** The first power of a number is that number. *)
Hypothesis np_power_1 : forall v, np_power v 1 = v.

(** C2 (amended): with [a = 1], [b = 0] the kernel of [Inv] returns
    [1 / (x + eps)] for every element [x], [eps = 1e-15]; that value
    is finite for every finite [x] other than [-eps] (so at [0] too),
    and it is the positive infinity at [x = -eps]. *)
Theorem Inv_apply_stabilised (p : option kwargs) (x : ndarray) :
  exists y,
    Power__call__ np_power {| klass := Inv; params := p |} x 1 0 = Ok y /\
    Forall2 (fun xi yi =>
               yi = (1 / (xi + eps))%float /\
               (finite_value xi -> xi <> (- eps)%float -> finite_value yi) /\
               (xi = (- eps)%float -> yi = infinity))
            x y.
Proof.
  exists (map (fun xi => 1 / (xi + eps))%float x). split.
  - unfold Power__call__, affine.
    cbn [getattr klass class_getattr mro mro_from base lookup_mro class_dict assoc
         String.eqb of_option mbind result_bind py_gt0 py_neg to_float64].
    cbn. rewrite !map_map. f_equal. apply map_ext. intros xi.
    change (float_of_int 1) with 1%float.
    rewrite np_power_1, mul_one_l, add_zero_add_eps. reflexivity.
  - induction x as [|xi x IH]; cbn [map]; constructor; [|exact IH].
    split; [reflexivity|]. split.
    + apply inv_eps_finite.
    + intros ->. apply inv_eps_pole.
Qed.
End Reciprocal.

(** C2 (as stated) fails: [-1e-15] is a finite input on which the
    kernel of [Inv] returns an infinity. *)
Lemma Inv_apply_pole :
  is_finite (- 1e-15)%float = true /\
  Power__call__ pow_exact (new Inv) [(- 1e-15)%float] 1 0 = Ok [infinity] /\
  is_finite infinity = false.
Proof. repeat split; reflexivity. Qed.

(** The amended statement, run on an array that holds [0], [1] and the
    pole. *)
Lemma Inv_apply_stabilised_witness :
  exists y,
    Power__call__ pow_exact (new Inv) [0%float; 1%float; (- eps)%float] 1 0 = Ok y /\
    Forall2 (fun xi yi =>
               yi = (1 / (xi + eps))%float /\
               (finite_value xi -> xi <> (- eps)%float -> finite_value yi) /\
               (xi = (- eps)%float -> yi = infinity))
            [0%float; 1%float; (- eps)%float] y.
Proof.
  apply (Inv_apply_stabilised pow_exact).
  intros v. reflexivity.
Defined.

(** * Further properties of the contract *)

#[local] Set Warnings "-clear-no-such-hyp".

(** Binding against the signature [(x, a, b)]: it succeeds exactly on
    the dictionaries whose keys are [a] and [b]. *)
Lemma bind_args_ab (kw : kwargs) :
  (dom kw = {[ "a"; "b" ]} ->
   exists va vb, kw !! "a" = Some va /\ kw !! "b" = Some vb /\
                 bind_args ["x"; "a"; "b"] kw = Ok [va; vb]) /\
  (dom kw <> {[ "a"; "b" ]} -> bind_args ["x"; "a"; "b"] kw = Raise TypeError).
Proof.
  unfold bind_args. cbn [list_to_set foldr mapM].
  destruct (kw !! "a") as [va|] eqn:Ea, (kw !! "b") as [vb|] eqn:Eb;
    cbn [mbind option_bind mret option_ret of_option].
  - split.
    + intros Hd. exists va, vb.
      destruct (decide _) as [|Hn]; [auto|]. exfalso. apply Hn. rewrite Hd. set_solver.
    + intros Hd. destruct (decide _) as [Hs|]; [|reflexivity].
      exfalso. apply Hd. apply set_eq. intros k. split; [set_solver|].
      intros Hk. apply elem_of_dom.
      assert (k = "a" \/ k = "b") as [->| ->] by set_solver; eauto.
  - split.
    + intros Hd. exfalso. apply not_elem_of_dom in Eb. apply Eb. rewrite Hd. set_solver.
    + intros _. destruct (decide _); reflexivity.
  - split.
    + intros Hd. exfalso. apply not_elem_of_dom in Ea. apply Ea. rewrite Hd. set_solver.
    + intros _. destruct (decide _); reflexivity.
  - split.
    + intros Hd. exfalso. apply not_elem_of_dom in Ea. apply Ea. rewrite Hd. set_solver.
    + intros _. destruct (decide _); reflexivity.
Qed.

Lemma bind_args_x (kw : kwargs) :
  bind_args ["x"] kw = if decide (kw = ∅) then Ok [] else Raise TypeError.
Proof.
  unfold bind_args. cbn [list_to_set foldr mapM].
  destruct (decide (kw = ∅)) as [->|Hne].
  - destruct (decide _) as [|Hn]; [reflexivity|]. exfalso. apply Hn. set_solver.
  - destruct (decide _) as [Hs|]; [|reflexivity]. exfalso. apply Hne.
    apply dom_empty_inv_L. set_solver.
Qed.

Lemma lookup_ab (va vb : float) :
  ({[ "a" := va; "b" := vb ]} : kwargs) !! "a" = Some va /\
  ({[ "a" := va; "b" := vb ]} : kwargs) !! "b" = Some vb /\
  dom ({[ "a" := va; "b" := vb ]} : kwargs) = {[ "a"; "b" ]}.
Proof.
  split; [|split].
  - apply lookup_insert_eq.
  - rewrite lookup_insert_ne by discriminate. apply lookup_singleton_eq.
  - rewrite dom_insert_L, dom_singleton_L. reflexivity.
Qed.

Section Apply.
Variables np_log np_log2 np_log10 np_exp : float -> float.
Variable np_power : float -> float -> float.

Local Abbreviation invoke' := (invoke np_log np_log2 np_log10 np_exp np_power).
Local Abbreviation kernel' := (kernel np_log np_log2 np_log10 np_exp np_power).
Local Abbreviation transform' := (transform np_log np_log2 np_log10 np_exp np_power).

Lemma kernel_is_map (c : cls) (i : call_impl) (p : option kwargs) (va vb : float) :
  c <> BaseTransformer -> resolve_call c = Ok i ->
  exists f : float -> float,
    forall x, kernel' i {| klass := c; params := p |} x va vb = Ok (RArray (map f x)).
Proof.
  intros Hc Hi.
  destruct c; try congruence; cbn in Hi; injection Hi as <-; cbn [kernel];
    try (eexists; intros x; unfold affine; rewrite !map_map; reflexivity).
  all: eexists; intros x;
    erewrite Power__call___elementwise by reflexivity; reflexivity.
Qed.

Lemma invoke_base (p : option kwargs) (kw : kwargs) x :
  invoke' {| klass := BaseTransformer; params := p |} x kw =
    if decide (kw = ∅) then Ok RNotImplementedError else Raise TypeError.
Proof.
  unfold invoke. cbn [klass resolve_call mro mro_from base resolve_call_in own_call
                      of_option mbind result_bind signature].
  rewrite bind_args_x. destruct (decide _); reflexivity.
Qed.

Lemma invoke_variant (c : cls) (i : call_impl) (p : option kwargs) (kw : kwargs) x :
  c <> BaseTransformer -> resolve_call c = Ok i ->
  (forall va vb, kw !! "a" = Some va -> kw !! "b" = Some vb ->
                 dom kw = {[ "a"; "b" ]} ->
                 invoke' {| klass := c; params := p |} x kw
                 = kernel' i {| klass := c; params := p |} x va vb) /\
  (dom kw <> {[ "a"; "b" ]} ->
   invoke' {| klass := c; params := p |} x kw = Raise TypeError).
Proof.
  intros Hc Hi. unfold invoke. cbn [klass]. rewrite Hi. cbn [mbind result_bind].
  assert (Hs : signature i = ["x"; "a"; "b"])
    by (destruct c; try congruence; cbn in Hi; injection Hi as <-; reflexivity).
  rewrite Hs. destruct (bind_args_ab kw) as [Hok Herr]. split.
  - intros va vb Ha Hb Hd. destruct (Hok Hd) as (va' & vb' & Ha' & Hb' & ->).
    rewrite Ha in Ha'. rewrite Hb in Hb'. injection Ha' as <-. injection Hb' as <-.
    cbn [mbind result_bind]. destruct i; reflexivity.
  - intros Hd. rewrite (Herr Hd). reflexivity.
Qed.

Lemma resolve_call_total (c : cls) : exists i, resolve_call c = Ok i.
Proof. destruct c; eexists; reflexivity. Qed.

Lemma params_match_inv (c : cls) (kw : kwargs) :
  params_match {| klass := c; params := Some kw |} <->
  dom kw = if decide (c = BaseTransformer) then ∅ else {[ "a"; "b" ]}.
Proof.
  unfold params_match. rewrite get_params_variant. cbn [klass params]. split.
  - intros (d & names & [= <-] & [= <-] & ->).
    destruct (decide _); cbn; set_solver.
  - intros Hd. eexists _, _. split; [reflexivity|]. split; [reflexivity|].
    rewrite Hd. destruct (decide _); cbn; set_solver.
Qed.

(** X1: [transform] returns a value exactly on the instances whose
    [params] hold the names of [get_params], no more and no fewer; once
    [params] is set, every other instance gets the argument-mismatch
    error. *)
Theorem transform_ok_iff_params_match (self : instance) (x : ndarray) :
  ((exists r, transform' self x = Ok r) <-> params_match self) /\
  (forall kw, params self = Some kw -> ~ params_match self ->
              transform' self x = Raise TypeError).
Proof.
  destruct self as [c [kw|]]; unfold transform; cbn [params].
  2:{ split; [|discriminate]. split; [intros [r H]; discriminate H|].
      intros (d & names & H & _). discriminate H. }
  rewrite params_match_inv.
  destruct (decide (c = BaseTransformer)) as [->|Hc].
  - rewrite invoke_base. split.
    + destruct (decide (kw = ∅)) as [->|Hne]; split; eauto.
      * intros [r H]. discriminate H.
      * intros Hd. apply dom_empty_inv_L in Hd. contradiction.
    + intros kw' [= <-] Hn. destruct (decide (kw = ∅)) as [->|]; [|reflexivity].
      exfalso. apply Hn, params_match_inv. rewrite decide_True by reflexivity.
      apply dom_empty_L.
  - destruct (resolve_call_total c) as [i Hi].
    destruct (invoke_variant c i (Some kw) kw x Hc Hi) as [Hok Herr]. split.
    + split.
      * intros [r H]. destruct (decide (dom kw = {[ "a"; "b" ]})) as [|Hd]; [assumption|].
        rewrite (Herr Hd) in H. discriminate H.
      * intros Hd. destruct (bind_args_ab kw) as [Hb _].
        destruct (Hb Hd) as (va & vb & Ha & Hb' & _).
        rewrite (Hok va vb Ha Hb' Hd).
        destruct (kernel_is_map c i (Some kw) va vb Hc Hi) as [f Hf].
        rewrite Hf. eauto.
    + intros kw' [= <-] Hn. apply Herr. intros Hd.
      apply Hn, params_match_inv. rewrite decide_False by assumption. exact Hd.
Qed.

(** X2: whatever array [transform] returns is the image of the input
    under one scalar function, fixed by the class and the stored
    parameters: same length, element by element. *)
Theorem transform_elementwise (self : instance) :
  exists f : float -> float, forall x : ndarray,
    match transform' self x with
    | Ok (RArray y) => y = map f x
    | Ok RNotImplementedError => klass self = BaseTransformer
    | Raise _ => True
    end.
Proof.
  destruct self as [c [kw|]]; unfold transform; cbn [params klass];
    [|exists id; intros x; exact I].
  destruct (decide (c = BaseTransformer)) as [->|Hc].
  - exists id. intros x. rewrite invoke_base. destruct (decide _); [reflexivity|exact I].
  - destruct (resolve_call_total c) as [i Hi].
    destruct (decide (dom kw = {[ "a"; "b" ]})) as [Hd|Hd].
    + destruct (bind_args_ab kw) as [Hb _].
      destruct (Hb Hd) as (va & vb & Ha & Hb' & _).
      destruct (kernel_is_map c i (Some kw) va vb Hc Hi) as [f Hf].
      exists f. intros x.
      destruct (invoke_variant c i (Some kw) kw x Hc Hi) as [Hok _].
      rewrite (Hok va vb Ha Hb' Hd), Hf. reflexivity.
    + exists id. intros x.
      destruct (invoke_variant c i (Some kw) kw x Hc Hi) as [_ Herr].
      rewrite (Herr Hd). exact I.
Qed.

(** X4: on the base class [transform] hands back the
    [NotImplementedError] class itself, without raising, when [params]
    is the empty dictionary, and fails on any other dictionary. *)
Theorem transform_base_class (p : option kwargs) (d kw : kwargs) (x : ndarray) :
  transform' (set_params {| klass := BaseTransformer; params := p |} None kw) x
    = (if decide (kw = ∅) then Ok RNotImplementedError else Raise TypeError) /\
  transform' (set_params {| klass := BaseTransformer; params := p |} (Some d) kw) x
    = (if decide (d = ∅) then Ok RNotImplementedError else Raise TypeError).
Proof. split; unfold transform; cbn [params set_params klass]; apply invoke_base. Qed.

(** X3: stored parameters and explicit parameters agree: after
    [set_params(a=va, b=vb)], or the same given as a mapping (whatever
    keywords come with it), [transform(x)] is [__call__(x, va, vb)], for
    every exported class. *)
Theorem transform_is_call (p : option kwargs) (va vb : float) (x : ndarray) :
  Forall (fun c =>
            exists i, resolve_call c = Ok i /\
              transform' (set_params {| klass := c; params := p |} None
                            {[ "a" := va; "b" := vb ]}) x
              = kernel' i (new c) x va vb /\
              forall kw,
                transform' (set_params {| klass := c; params := p |}
                              (Some {[ "a" := va; "b" := vb ]}) kw) x
                = kernel' i (new c) x va vb)
         __all__.
Proof.
  destruct (lookup_ab va vb) as (Ha & Hb & Hd).
  unfold __all__.
  repeat match goal with
         | |- Forall _ (_ :: _) => constructor
         | |- Forall _ [] => constructor
         end;
    (eexists; split; [reflexivity|]);
    unfold transform, set_params; cbn [params klass];
    (split; [|intros kw]);
    (match goal with
     | |- invoke' {| klass := ?c; params := ?q |} _ _ = kernel' ?i _ _ _ _ =>
         destruct (invoke_variant c i q {[ "a" := va; "b" := vb ]} x) as [Hok _];
         [discriminate | reflexivity | rewrite (Hok va vb Ha Hb Hd); reflexivity]
     end).
Qed.
End Apply.

Lemma add_zero_spec (x : float) :
  Prim2SF (x + 0)%float =
    match Prim2SF x with
    | S754_zero _ => S754_zero false
    | X => X
    end.
Proof.
  rewrite add_spec. change (Prim2SF 0%float) with (S754_zero false).
  destruct (Prim2SF x) as [[]|[]| |s m e]; reflexivity.
Qed.

Lemma abs_add_zero (x : float) : abs (x + 0)%float = abs x.
Proof.
  apply Prim2SF_inj. rewrite !abs_spec, add_zero_spec.
  destruct (Prim2SF x) as [[]|[]| |s m e]; reflexivity.
Qed.

Lemma abs_not_negative (v : float) : (abs v <? 0)%float = false.
Proof.
  rewrite ltb_spec, abs_spec. change (Prim2SF 0%float) with (S754_zero false).
  destruct (Prim2SF v) as [s|s| |s m e]; reflexivity.
Qed.

Lemma is_finite_abs (v : float) : is_finite (abs v) = is_finite v.
Proof.
  rewrite !is_finite_spec, abs_spec.
  destruct (Prim2SF v) as [s|s| |s m e]; reflexivity.
Qed.

(** The possible results of rounding a non-negative mantissa carry the
    sign they were given. *)
Lemma binary_round_aux_cases (s : bool) (m e : Z) (l : location) :
  0 <= m ->
  binary_round_aux prec emax s m e l = S754_zero s \/
  binary_round_aux prec emax s m e l = S754_infinity s \/
  exists m' e', binary_round_aux prec emax s m e l = S754_finite s m' e'.
Proof.
  intros Hm. destruct (binary_round_aux_inv s m e l Hm)
    as (e1 & mr & e2 & m2 & He1 & Hmr & He2 & Hm2 & ->).
  assert (0 <= m / 2 ^ (e1 - e)) by (apply Z.div_pos; [lia|apply pow2_pos; lia]).
  assert (0 <= m2) by (subst m2; apply Z.div_pos; [lia|apply pow2_pos; lia]).
  destruct m2; try lia; [auto|]. destruct (e2 <=? emax - prec); eauto.
Qed.

(** A square is never negative; it is NaN only for NaN. *)
Lemma square_spec (v : float) :
  (Prim2SF v = S754_nan /\ Prim2SF (v * v)%float = S754_nan) \/
  (Prim2SF v <> S754_nan /\ sf_nonneg (Prim2SF (v * v)%float) = true).
Proof.
  rewrite mul_spec. unfold SF64mul, SFmul.
  destruct (Prim2SF v) as [[]|[]| |s m e]; try (right; split; [discriminate|reflexivity]).
  - left. split; reflexivity.
  - right. split; [discriminate|].
    replace (xorb s s) with false by (destruct s; reflexivity).
    destruct (binary_round_aux_cases false (Zpos (m * m)) (e + e) loc_Exact)
      as [-> |[-> |(m' & e' & ->)]]; [lia|reflexivity..].
Qed.

Lemma square_add_zero (x : float) : ((x + 0) * (x + 0))%float = (x * x)%float.
Proof.
  apply Prim2SF_inj. rewrite !mul_spec, add_zero_spec.
  destruct (Prim2SF x) as [[]|[]| |s m e]; reflexivity.
Qed.

Lemma not_negative_of_nonneg (w : float) :
  sf_nonneg (Prim2SF w) = true -> (w <? 0)%float = false.
Proof.
  rewrite ltb_spec. change (Prim2SF 0%float) with (S754_zero false).
  destruct (Prim2SF w) as [[]|[]| |[] m e]; try discriminate; reflexivity.
Qed.

Lemma nan_not_negative (w : float) :
  Prim2SF w = S754_nan -> (w <? 0)%float = false.
Proof. rewrite ltb_spec. intros ->. reflexivity. Qed.

(** The stabilised reciprocal of a non-negative number is finite. *)
Lemma inv_eps_nonneg (w : float) :
  sf_nonneg (Prim2SF w) = true -> finite_value (1 / (w + eps))%float.
Proof.
  intros Hw. destruct (Prim2SF w) as [[]|[]| |[] m e] eqn:E; try discriminate Hw.
  - unfold finite_value.
    rewrite div_spec, add_spec, E, Prim2SF_eps, Prim2SF_one. reflexivity.
  - unfold finite_value.
    rewrite div_spec, add_spec, E, Prim2SF_eps, Prim2SF_one. reflexivity.
  - apply inv_eps_finite.
    + unfold finite_value. rewrite E. reflexivity.
    + intros ->. rewrite opp_spec, Prim2SF_eps in E. discriminate E.
Qed.

Lemma inv_eps_nan (w : float) :
  Prim2SF w = S754_nan -> Prim2SF (1 / (w + eps))%float = S754_nan.
Proof.
  intros E. rewrite div_spec, add_spec, E, Prim2SF_eps, Prim2SF_one. reflexivity.
Qed.

Lemma finite_not_nan (v : float) : finite_value v -> Prim2SF v <> S754_nan.
Proof. unfold finite_value. intros H E. rewrite E in H. discriminate H. Qed.

Lemma validate_input_Forall (self : instance) (y : ndarray) :
  validate_input self y = true <-> Forall (fun v => is_finite v = true) y.
Proof.
  unfold validate_input, all, np_isfinite. rewrite forallb_forall, Forall_forall.
  split.
  - intros H v Hv. apply (H (is_finite v)), in_map, list_elem_of_In, Hv.
  - intros H b Hb. apply in_map_iff in Hb as (v & <- & Hv).
    apply H, list_elem_of_In, Hv.
Qed.

Section Squares.
Variable np_power : float -> float -> float.
(** The second power of a number is its rounded square. *)
Hypothesis np_power_2 : forall v, np_power v 2 = (v * v)%float.

(** X8: [InvPower2] has no pole: whatever [a], [b] and [x], an element
    of its result is [1 / ((a x + b)^2 + eps)], which is finite unless
    [a x + b] is NaN, and NaN in that case; so the result passes
    [validate_input] exactly when no [a x + b] is NaN. *)
Theorem InvPower2_no_pole (p : option kwargs) (a b : float) (x : ndarray) :
  exists y,
    Power__call__ np_power {| klass := InvPower2; params := p |} x a b = Ok y /\
    Forall2 (fun xi yi =>
               yi = (1 / ((a * xi + b) * (a * xi + b) + eps))%float /\
               (Prim2SF (a * xi + b)%float <> S754_nan -> finite_value yi) /\
               (Prim2SF (a * xi + b)%float = S754_nan -> Prim2SF yi = S754_nan))
            x y /\
    (validate_input {| klass := InvPower2; params := p |} y = true <->
     Forall (fun xi => Prim2SF (a * xi + b)%float <> S754_nan) x).
Proof.
  exists (map (fun xi => 1 / ((a * xi + b) * (a * xi + b) + eps))%float x).
  split; [|split].
  - erewrite Power__call___elementwise by reflexivity.
    f_equal. apply map_ext. intros xi. unfold spec_power_elem.
    change (0 <? -2)%float with false. cbv iota.
    change (- -2)%float with 2%float. rewrite np_power_2. reflexivity.
  - induction x as [|xi x IH]; cbn [map]; constructor; [|exact IH].
    split; [reflexivity|].
    destruct (square_spec (a * xi + b)%float) as [[Hn Hs]|[Hn Hs]]; split; intros H;
      try contradiction.
    + apply inv_eps_nan, Hs.
    + apply inv_eps_nonneg, Hs.
  - rewrite validate_input_Forall, Forall_map. apply Forall_iff. intros xi. cbn.
    rewrite is_finite_true.
    destruct (square_spec (a * xi + b)%float) as [[Hn Hs]|[Hn Hs]]; split; intros H.
    + apply finite_not_nan in H. exfalso. apply H, inv_eps_nan, Hs.
    + contradiction.
    + assumption.
    + apply inv_eps_nonneg, Hs.
Qed.

(** X9: with [a = 1], [b = 0] the kernel of [Power2] returns the
    rounded square of each element, which is never negative. *)
Theorem Power2_square (p : option kwargs) (x : ndarray) :
  Power__call__ np_power {| klass := Power2; params := p |} x 1 0
    = Ok (map (fun xi => xi * xi)%float x) /\
  Forall (fun yi => (yi <? 0)%float = false) (map (fun xi => xi * xi)%float x).
Proof.
  split.
  - erewrite Power__call___elementwise by reflexivity.
    f_equal. apply map_ext. intros xi. unfold spec_power_elem.
    change (0 <? 2)%float with true. cbv iota.
    rewrite np_power_2, mul_one_l, square_add_zero. reflexivity.
  - rewrite Forall_map. apply Forall_forall. intros xi _. cbn.
    destruct (square_spec xi) as [[_ Hs]|[_ Hs]].
    + apply nan_not_negative, Hs.
    + apply not_negative_of_nonneg, Hs.
Qed.
End Squares.

Lemma InvPower2_no_pole_witness :
  exists y,
    Power__call__ pow_exact (new InvPower2) [0%float; (- eps)%float; infinity] 1 0 = Ok y /\
    Forall2 (fun xi yi =>
               yi = (1 / ((1 * xi + 0) * (1 * xi + 0) + eps))%float /\
               (Prim2SF (1 * xi + 0)%float <> S754_nan -> finite_value yi) /\
               (Prim2SF (1 * xi + 0)%float = S754_nan -> Prim2SF yi = S754_nan))
            [0%float; (- eps)%float; infinity] y /\
    (validate_input (new InvPower2) y = true <->
     Forall (fun xi => Prim2SF (1 * xi + 0)%float <> S754_nan)
            [0%float; (- eps)%float; infinity]).
Proof.
  apply (InvPower2_no_pole pow_exact).
  intros v. reflexivity.
Defined.

Lemma Power2_square_witness :
  Power__call__ pow_exact (new Power2) [(-3)%float; 0%float; 0.5%float] 1 0
    = Ok (map (fun xi => xi * xi)%float [(-3)%float; 0%float; 0.5%float]) /\
  Forall (fun yi => (yi <? 0)%float = false)
         (map (fun xi => xi * xi)%float [(-3)%float; 0%float; 0.5%float]).
Proof.
  apply (Power2_square pow_exact).
  intros v. reflexivity.
Defined.

Lemma validate_input_map_abs (self : instance) (x : ndarray) :
  validate_input self (map abs x) = validate_input self x.
Proof.
  unfold validate_input, all, np_isfinite. rewrite map_map.
  f_equal. apply map_ext. intros v. apply is_finite_abs.
Qed.

Section AbsKernel.
Variables np_log np_log2 np_log10 np_exp : float -> float.
Variable np_power : float -> float -> float.

Local Abbreviation transform' := (transform np_log np_log2 np_log10 np_exp np_power).

(** X7: [Abs]: an element of the result is [|a x + b|]; it is never
    negative and it is finite exactly when [a x + b] is.  With [a = 1],
    [b = 0] the result is [|x|], element by element, and it passes
    [validate_input] exactly when the input does. *)
Theorem Abs_transform (p : option kwargs) (va vb : float) (x : ndarray) :
  (exists y,
      transform' (set_params {| klass := Abs; params := p |} None
                    {[ "a" := va; "b" := vb ]}) x = Ok (RArray y) /\
      Forall2 (fun xi yi =>
                 yi = abs (va * xi + vb) /\
                 (yi <? 0)%float = false /\
                 is_finite yi = is_finite (va * xi + vb)%float)
              x y) /\
  transform' (set_params {| klass := Abs; params := p |} None
                {[ "a" := 1%float; "b" := 0%float ]}) x = Ok (RArray (map abs x)) /\
  validate_input (new Abs) (map abs x) = validate_input (new Abs) x.
Proof.
  assert (Hcall : forall a b,
             transform' (set_params {| klass := Abs; params := p |} None
                           {[ "a" := a; "b" := b ]}) x
             = Ok (RArray (map (fun xi => abs (a * xi + b)) x))).
  { intros a b. destruct (lookup_ab a b) as (Ha & Hb & Hd).
    unfold transform, set_params. cbn [params klass].
    destruct (invoke_variant np_log np_log2 np_log10 np_exp np_power
                Abs Abs_call (Some {[ "a" := a; "b" := b ]}) {[ "a" := a; "b" := b ]} x)
      as [Hok _]; [discriminate|reflexivity|].
    rewrite (Hok a b Ha Hb Hd). cbn [kernel]. unfold affine. rewrite !map_map.
    reflexivity. }
  split; [|split].
  - eexists. split; [apply Hcall|]. clear Hcall.
    induction x as [|xi x IH]; cbn [map]; constructor; [|exact IH].
    split; [reflexivity|]. split; [apply abs_not_negative|apply is_finite_abs].
  - rewrite Hcall. do 2 f_equal. apply map_ext. intros xi.
    rewrite mul_one_l. apply abs_add_zero.
  - apply validate_input_map_abs.
Qed.
End AbsKernel.

Section ReciprocalValidation.
Variable np_power : float -> float -> float.
Hypothesis np_power_1 : forall v, np_power v 1 = v.

Lemma Inv_call_unit (p : option kwargs) (x : ndarray) :
  Power__call__ np_power {| klass := Inv; params := p |} x 1 0
    = Ok (map (fun xi => 1 / (xi + eps))%float x).
Proof.
  erewrite Power__call___elementwise by reflexivity.
  f_equal. apply map_ext. intros xi. unfold spec_power_elem.
  change (0 <? -1)%float with false. cbv iota.
  change (- -1)%float with 1%float.
  rewrite np_power_1, mul_one_l, add_zero_add_eps. reflexivity.
Qed.

(** X10: the caller's validation step catches the pole of [Inv]: on
    finite input, with [a = 1], [b = 0], the result passes
    [validate_input] exactly when no element of the input is [-eps]. *)
Theorem Inv_output_validates (p : option kwargs) (x : ndarray) :
  exists y,
    Power__call__ np_power {| klass := Inv; params := p |} x 1 0 = Ok y /\
    (Forall finite_value x ->
     (validate_input {| klass := Inv; params := p |} y = true <->
      (- eps)%float ∉ x)).
Proof.
  eexists. split; [apply Inv_call_unit|].
  intros Hfin. rewrite validate_input_Forall, Forall_map.
  induction Hfin as [|xi x Hxi Hx IH].
  - split; [intros _; apply not_elem_of_nil|constructor].
  - rewrite Forall_cons_iff, not_elem_of_cons, IH. cbn.
    rewrite is_finite_true. split; intros [H1 H2]; (split; [|exact H2]).
    + intros E. rewrite <- E in H1. change (1 / (- eps + eps))%float with infinity in H1.
      discriminate H1.
    + apply inv_eps_finite; [exact Hxi|]. intros E. apply H1. symmetry. exact E.
Qed.
End ReciprocalValidation.

Lemma Inv_output_validates_witness :
  exists y,
    Power__call__ pow_exact (new Inv) [0%float; 1%float; (-2)%float] 1 0 = Ok y /\
    (Forall finite_value [0%float; 1%float; (-2)%float] ->
     (validate_input (new Inv) y = true <->
      (- eps)%float ∉ [0%float; 1%float; (-2)%float])).
Proof.
  apply (Inv_output_validates pow_exact).
  intros v. reflexivity.
Defined.

(** * Introspection, overwriting and the catalogue *)

(** X5: [get_params] is a property of the class alone: after any
    sequence of [set_params] calls it is still the empty list on the
    base class and [a], [b] on every other class. *)
Theorem get_params_every_class (self : instance) (calls : list (option kwargs * kwargs)) :
  get_params (set_params_seq self calls) =
    Ok (if decide (klass self = BaseTransformer) then [] else ["a"; "b"]).
Proof.
  rewrite get_params_variant, set_params_seq_klass. reflexivity.
Qed.

(** X6: [set_params] overwrites: after any sequence of calls the
    instance is the one a single call, the last, would have produced;
    nothing of the earlier dictionaries is kept or merged. *)
Theorem set_params_overwrites (self : instance) calls p kw :
  set_params_seq self (calls ++ [(p, kw)]) = set_params self p kw.
Proof.
  rewrite set_params_seq_snoc. unfold set_params.
  rewrite set_params_seq_klass. reflexivity.
Qed.

(** X12: every entry of the default catalogue is an exported class
    with a positive integer complexity, and no two entries share their
    complexity, so that the lowest one singles out one transform. *)
Theorem default_catalogue_complexity :
  Forall (fun c => c ∈ __all__ /\
                   exists k, class_getattr c "complexity" = Some (VInt k) /\ 0 < k)
         DEFAULT_TRANSFORM /\
  Forall (fun c1 =>
            Forall (fun c2 =>
                      class_getattr c1 "complexity" = class_getattr c2 "complexity" ->
                      c1 = c2)
                   DEFAULT_TRANSFORM)
         DEFAULT_TRANSFORM.
Proof.
  split.
  - unfold DEFAULT_TRANSFORM.
    repeat match goal with
           | |- Forall _ (_ :: _) => constructor
           | |- Forall _ [] => constructor
           end;
      (split; [apply list_elem_of_In; cbn; tauto | eexists; split; reflexivity]).
  - unfold DEFAULT_TRANSFORM.
    repeat match goal with
           | |- Forall _ (_ :: _) => constructor
           | |- Forall _ [] => constructor
           end;
      cbn; intros H; first [reflexivity | discriminate H].
Qed.

(** * The diagnostic representation *)

(** Two instances that print alike are of the same class. *)
Lemma repr_names_class (dict_str : kwargs -> string) (s1 s2 : instance) :
  __repr__ dict_str s1 = __repr__ dict_str s2 -> klass s1 = klass s2.
Proof.
  destruct s1 as [c1 p1], s2 as [c2 p2]. unfold __repr__. cbn [klass params].
  generalize (str_params dict_str p1) (str_params dict_str p2). intros t1 t2.
  destruct c1, c2; cbn; intros H; first [reflexivity | discriminate H | congruence].
Qed.

Lemma string_app_inv_head (pre t1 t2 : string) : pre ++ t1 = pre ++ t2 -> t1 = t2.
Proof. induction pre as [|a pre IH]; cbn; [auto|]. intros [= H]. auto. Qed.

Lemma string_snoc_inj (c : Ascii.ascii) (t1 t2 : string) :
  t1 ++ String c "" = t2 ++ String c "" -> t1 = t2.
Proof.
  revert t2. induction t1 as [|a t1 IH]; intros [|b t2]; cbn; intros H.
  - reflexivity.
  - injection H as _ H. destruct t2; discriminate H.
  - injection H as _ H. destruct t1; discriminate H.
  - injection H as -> H. f_equal. apply IH, H.
Qed.

(** X11: the diagnostic string [Transform<Name:params>] determines
    the class of the instance and the text of its [params]: two
    instances print alike exactly when they agree on both. *)
Theorem repr_determines (dict_str : kwargs -> string) (s1 s2 : instance) :
  __repr__ dict_str s1 = __repr__ dict_str s2 <->
  klass s1 = klass s2 /\
  str_params dict_str (params s1) = str_params dict_str (params s2).
Proof.
  split.
  - intros H. pose proof (repr_names_class _ _ _ H) as Hk. split; [assumption|].
    unfold __repr__ in H. rewrite Hk in H.
    do 3 apply string_app_inv_head in H.
    apply string_snoc_inj in H. exact H.
  - intros [Hk Hp]. unfold __repr__. rewrite Hk, Hp. reflexivity.
Qed.
